(** * war-dice: the combat store of [src/store/game.ts]

    A shallow embedding of the zustand store that drives one attack /
    defense encounter, and the properties of its operations.

    The store is mutable and reads a global random source, so the
    operations live in a small state monad over a [World]: the store's
    data fields plus the stream of values that the successive calls of
    [rollDice()] will return.  Troop counts are JavaScript numbers that
    only ever hold integers here; they are modelled by [Z].  The numbers
    of the code are doubles, which agree with [Z] within the safe
    integers: the statements that rest on an exact difference of troop
    counts carry that bound ([safeTroops]); comparisons and the counts
    capped at 3 do not need it. *)

From Stdlib Require Import ZArith Lia Sorting.Sorted.
From stdpp Require Import base list.

Local Open Scope Z_scope.

(** ** Enumerations and per-side records *)

(** Modelled from the spec: the enumeration [Sides] is declared in
    [utils/types], which is not part of the sources at hand ("Side:
    enumeration of exactly two participants: Attacker, Defender").  The
    constructors carry the member names that [game.ts] uses. *)
Inductive Sides : Type := Attack | Defense.

(** Modelled from the spec: the enumeration [GameState], of the same
    absent file ("Phase: enumeration: Waiting, Rolling, Finished"). *)
Inductive GameState : Type := Waiting | Rolling | Finished.

#[global] Instance Sides_eq_dec : EqDecision Sides.
Proof. solve_decision. Defined.

#[global] Instance GameState_eq_dec : EqDecision GameState.
Proof. solve_decision. Defined.

(** Modelled from the spec: [Object.values(Sides)] enumerates the members
    of the absent enumeration in declaration order, Attacker first. *)
Definition Sides_values : list Sides := [Attack; Defense].

(** [Record<Sides, A>]: one value per side. *)
Record BySide (A : Type) : Type := mkBySide { attack : A; defense : A }.
Arguments mkBySide {A} _ _.
Arguments attack {A} _.
Arguments defense {A} _.

(** [r[side]] *)
Definition sget {A} (r : BySide A) (side : Sides) : A :=
  match side with
  | Attack => attack r
  | Defense => defense r
  end.

(** [{ ...r, [side]: v }], also used for the assignment [r[side] = v]. *)
Definition sset {A} (side : Sides) (v : A) (r : BySide A) : BySide A :=
  match side with
  | Attack => {| attack := v; defense := defense r |}
  | Defense => {| attack := attack r; defense := v |}
  end.

(** ** The data fields of the store *)

Module RollDice.

(** One resolved exchange.  [Array.from({ length })] creates [rounds]
    with holes ([undefined], here [None]) that the comparison loop then
    fills. *)
Record t : Type := mk {
  dices : BySide (list Z);
  rounds : list (option Sides);
  winner : Sides;
  troopsLost : BySide Z
}.

End RollDice.

Record GameData : Type := mkGameData {
  state : GameState;
  initialTroops : BySide Z;
  troops : BySide Z;
  rolls : list RollDice.t;
  winner : option Sides
}.

Definition MAX_DICE_ROUNDS : Z := 3.

Definition initialState : GameData :=
  {| state := Waiting;
     initialTroops := {| attack := 0; defense := 0 |};
     troops := {| attack := 4; defense := 4 |};
     rolls := [];
     winner := None |}.

(** ** JavaScript helpers *)

(** [Math.max(x, ...xs)] and [Math.min(x, ...xs)] on integers. *)
Definition Math_max (x : Z) (xs : list Z) : Z := foldl Z.max x xs.
Definition Math_min (x : Z) (xs : list Z) : Z := foldl Z.min x xs.

(** [arr[i]] for a number [i]: [undefined] (here [None]) outside the
    array, in particular at [-1]. *)
Definition js_index {A} (arr : list A) (i : Z) : option A :=
  if i <? 0 then None else arr !! Z.to_nat i.

(** [a > b] where either operand may be [undefined]: the comparison with
    [undefined] goes through [NaN] and is false. *)
Definition js_gt (a b : option Z) : bool :=
  match a, b with
  | Some x, Some y => x >? y
  | _, _ => false
  end.

(** [arr.sort(cmp)]: the stable sort by a comparator, as an insertion
    sort.  [x] is placed before the first element it does not have to
    follow. *)
Fixpoint js_insert (cmp : Z -> Z -> Z) (x : Z) (l : list Z) : list Z :=
  match l with
  | [] => [x]
  | y :: l' => if cmp x y <=? 0 then x :: y :: l' else y :: js_insert cmp x l'
  end.

Fixpoint js_sort (cmp : Z -> Z -> Z) (l : list Z) : list Z :=
  match l with
  | [] => []
  | x :: l' => js_insert cmp x (js_sort cmp l')
  end.

(** The comparator [(a, b) => b - a] of [rollDices]: highest first. *)
Definition descending : Z -> Z -> Z := fun a b => b - a.

(** ** The store monad *)

(** The values the coming calls of [rollDice()] return, first call first. *)
Definition Rng : Type := nat -> Z.

Record World : Type := mkWorld { store : GameData; source : Rng }.

Definition M (A : Type) : Type := World -> A * World.

Definition ret {A} (a : A) : M A := fun w => (a, w).

Definition bind {A B} (m : M A) (k : A -> M B) : M B :=
  fun w => let (a, w') := m w in k a w'.

(** With these instances the operations are written in stdpp's monad
    notation: [x ← m; k] and [m;; k]. *)
#[global] Instance M_ret : MRet M := @ret.
#[global] Instance M_bind : MBind M := fun A B k m => bind m k.

(** zustand's [get()] and [set(fn)]; the partial object that [fn] returns
    is merged into the store, which the update functions below spell out
    field by field. *)
Definition get : M GameData := fun w => (store w, w).

Definition set (f : GameData -> GameData) : M unit :=
  fun w => (tt, {| store := f (store w); source := source w |}).

(** Modelled from the spec: [rollDice] of [utils/math] is absent; it
    "rolls each die as a uniform-random integer in [1,6]".  A call takes
    the next value of the source.  Nothing below depends on the range. *)
Definition rollDice : M Z :=
  fun w => (source w 0%nat,
            {| store := store w; source := fun n => source w (S n) |}).

Definition exec {A} (m : M A) (w : World) : World := snd (m w).
Definition eval {A} (m : M A) (w : World) : A := fst (m w).

(** ** Operations of the store *)

Definition reset : M unit := set (fun _ => initialState).

(** The second argument of [setTroops]: a number or a function of the
    current count. *)
Inductive TroopsValue : Type :=
| Num (v : Z)
| Fn (f : Z -> Z).

Definition setTroops (side : Sides) (value : TroopsValue) : M unit :=
  set (fun s =>
    {| state := state s;
       initialTroops := initialTroops s;
       troops :=
         sset side
           (Math_max 0
              [match value with
               | Fn f => f (sget (troops s) side)
               | Num v => v
               end])
           (troops s);
       rolls := rolls s;
       winner := winner s |}).

Definition getLastRoll : M (option RollDice.t) :=
  s ← get;
  mret (js_index (rolls s) (Z.of_nat (length (rolls s)) - 1)).

Definition nextDiceCount (side : Sides) (troops : Z) : Z :=
  if decide (side = Attack) then
    if troops >=? 4 then 3
    else if troops =? 3 then 2
    else if troops =? 2 then 1
    else 0
  else
    if troops >=? 3 then 3
    else if troops =? 2 then 2
    else if troops =? 1 then 1
    else 0.

Definition nextRoundCount : M Z :=
  s ← get;
  mret (Math_max 0
         [Math_min MAX_DICE_ROUNDS
            [sget (troops s) Defense; sget (troops s) Attack - 1]]).

(** The initial value of [dices] in [rollDices]. *)
Definition noDices : BySide (list Z) := {| attack := []; defense := [] |}.

(** [for (let i = 0; i < count; i++) arr.push(rollDice())] with [count]
    iterations left. *)
Fixpoint pushRolls (count : nat) (arr : list Z) : M (list Z) :=
  match count with
  | O => mret arr
  | S n => d ← rollDice; pushRolls n (arr ++ [d])
  end.

(** The loop over the sides that fills and sorts [dices]. *)
Fixpoint rollSides (sides : list Sides) (troops : BySide Z)
    (dices : BySide (list Z)) : M (BySide (list Z)) :=
  match sides with
  | [] => mret dices
  | side :: rest =>
      let count := nextDiceCount side (sget troops side) in
      arr ← pushRolls (Z.to_nat count) (sget dices side);
      rollSides rest troops
        (sset side (js_sort descending arr) dices)
  end.

(** The winner of the pair of dice at index [i]:
    [attack > defense ? Sides.Attack : Sides.Defense]. *)
Definition pairWinner (dices : BySide (list Z)) (i : nat) : Sides :=
  let attack := sget dices Attack !! i in
  let defense := sget dices Defense !! i in
  if js_gt attack defense then Attack else Defense.

(** One pass of the comparison loop, at index [i]; the read of
    [rounds[i]] in [wins[rounds[i]]++] gives back what was just stored. *)
Definition compareStep (dices : BySide (list Z))
    (acc : list (option Sides) * BySide Z) (i : nat)
    : list (option Sides) * BySide Z :=
  let (rounds, wins) := acc in
  let r := pairWinner dices i in
  (<[i := Some r]> rounds, sset r (sget wins r + 1) wins).

(** [for (let i = 0; i < roundCount; i++) ...] starting from the array of
    [roundCount] holes and no wins. *)
Definition compareDices (roundCount : Z) (dices : BySide (list Z))
    : list (option Sides) * BySide Z :=
  foldl (compareStep dices)
    (replicate (Z.to_nat roundCount) None, {| attack := 0; defense := 0 |})
    (seq 0 (Z.to_nat roundCount)).

Definition rollDices : M unit :=
  s ← get;
  let current := troops s in
  roundCount ← nextRoundCount;
  dices ← rollSides Sides_values current noDices;
  let (rounds, wins) := compareDices roundCount dices in
  let roundWinner :=
    if sget wins Attack >? sget wins Defense then Attack else Defense in
  let troopsLost :=
    {| attack := roundCount - sget wins Attack;
       defense := roundCount - sget wins Defense |} in
  let updatedTroops :=
    {| attack := sget current Attack - sget troopsLost Attack;
       defense := sget current Defense - sget troopsLost Defense |} in
  set (fun s =>
    {| state := state s;
       initialTroops := initialTroops s;
       troops := updatedTroops;
       rolls := rolls s ++ [RollDice.mk dices rounds roundWinner troopsLost];
       winner := winner s |});;
  if sget updatedTroops Defense =? 0 then
    set (fun s =>
      {| state := Finished;
         initialTroops := initialTroops s;
         troops := troops s;
         rolls := rolls s;
         winner := Some Attack |})
  else if sget updatedTroops Attack <=? 1 then
    set (fun s =>
      {| state := Finished;
         initialTroops := initialTroops s;
         troops := troops s;
         rolls := rolls s;
         winner := Some Defense |})
  else mret tt.

Definition play : M unit :=
  s ← get;
  if decide (state s = Finished) then reset
  else
    (if decide (state s = Waiting) then
       set (fun s =>
         {| state := Rolling;
            initialTroops := troops s;
            troops := troops s;
            rolls := [];
            winner := None |})
     else mret tt);;
    rollDices.

(** ** Sequences of calls made by a user of the store *)

Inductive Op : Type :=
| SetTroops (side : Sides) (value : TroopsValue)
| Play
| Reset.

Definition call (op : Op) : M unit :=
  match op with
  | SetTroops side value => setTroops side value
  | Play => play
  | Reset => reset
  end.

Fixpoint calls (ops : list Op) : M unit :=
  match ops with
  | [] => mret tt
  | op :: rest => call op;; calls rest
  end.

(** The store as [create] builds it, in front of a given random source. *)
Definition initialWorld (src : Rng) : World :=
  {| store := initialState; source := src |}.

(** The calls of [ops], made one after the other from [w], never reach
    [setTroops] while the game is finished. *)
Fixpoint setTroopsBeforeFinish (ops : list Op) (w : World) : bool :=
  match ops with
  | [] => true
  | op :: rest =>
      match op with
      | SetTroops _ _ => bool_decide (state (store w) ≠ Finished)
      | _ => true
      end && setTroopsBeforeFinish rest (exec (call op) w)
  end.

(** A source that returns the values of [l] first and [1] from then on. *)
Definition sourceOf (l : list Z) : Rng := fun n => default 1 (l !! n).

(** Configuring the troop counts: a run of [setTroops] calls. *)
Definition configure (cfg : list (Sides * TroopsValue)) : M unit :=
  calls (map (fun c => SetTroops c.1 c.2) cfg).

(** ** Vocabulary of the statements *)

Definition nonNegative (t : BySide Z) : Prop :=
  0 <= attack t /\ 0 <= defense t.

(** What [play] does to the store before it rolls, in a game that is not
    finished: the [set] of the [Waiting] branch, or nothing. *)
Definition started (s : GameData) : GameData :=
  if decide (state s = Waiting) then
    {| state := Rolling;
       initialTroops := troops s;
       troops := troops s;
       rolls := [];
       winner := None |}
  else s.

(** The roll history is empty exactly in phase [Waiting]. *)
Definition historyMatchesPhase (g : GameData) : Prop :=
  rolls g = [] <-> state g = Waiting.

(** The two ways a game ends, as the data fields show them. *)
Definition endedByChecks (g : GameData) : Prop :=
  (defense (troops g) = 0 /\ winner g = Some Attack)
  \/ (0 < defense (troops g) /\ attack (troops g) <= 1
      /\ winner g = Some Defense).

(** [Number.MAX_SAFE_INTEGER]: up to this magnitude the numbers of the
    code that hold integers are exactly those integers, and so are their
    sums and differences that stay within it. *)
Definition MAX_SAFE_INTEGER : Z := 9007199254740991.

(** Troop counts within the safe integers, where the subtraction
    [troops[side] - troopsLost[side]] of [rollDices] is exact. *)
Definition safeTroops (t : BySide Z) : Prop :=
  - MAX_SAFE_INTEGER <= attack t <= MAX_SAFE_INTEGER
  /\ - MAX_SAFE_INTEGER <= defense t <= MAX_SAFE_INTEGER.

(** [n] calls of [play] in a row. *)
Definition plays (n : nat) : M unit := calls (replicate n Play).

(** The values returned by [count] calls of [rollDice()], the first of
    them being call number [from] of the source. *)
Definition drawn (src : Rng) (from count : nat) : list Z :=
  map src (seq from count).

(** The number of entries of a [rounds] array that name [side]. *)
Definition roundsWonBy (side : Sides) (rounds : list (option Sides)) : Z :=
  Z.of_nat (length (filter (fun r => r = Some side) rounds)).

(** * Properties *)

(** ** The JavaScript helpers *)

Lemma Math_max_two (x y : Z) : Math_max x [y] = Z.max x y.
Proof. reflexivity. Qed.

Lemma Math_min_three (x y z : Z) : Math_min x [y; z] = Z.min (Z.min x y) z.
Proof. reflexivity. Qed.

Lemma js_insert_length cmp x l : length (js_insert cmp x l) = S (length l).
Proof.
  induction l as [|y l IH]; simpl; [reflexivity|].
  destruct (cmp x y <=? 0); simpl; [reflexivity|]. now rewrite IH.
Qed.

Lemma js_sort_length cmp l : length (js_sort cmp l) = length l.
Proof.
  induction l as [|x l IH]; simpl; [reflexivity|].
  now rewrite js_insert_length, IH.
Qed.

Lemma js_insert_perm cmp x l : js_insert cmp x l ≡ₚ x :: l.
Proof.
  induction l as [|y l IH]; simpl; [reflexivity|].
  destruct (cmp x y <=? 0); [reflexivity|].
  rewrite IH. apply Permutation_swap.
Qed.

Lemma js_sort_perm cmp l : js_sort cmp l ≡ₚ l.
Proof.
  induction l as [|x l IH]; simpl; [reflexivity|].
  now rewrite js_insert_perm, IH.
Qed.

Lemma js_insert_descending x l :
  Sorted Z.ge l -> Sorted Z.ge (js_insert descending x l).
Proof.
  induction 1 as [|y l Hl IH Hhd]; simpl.
  - repeat constructor.
  - unfold descending at 1.
    destruct (Z.leb_spec (y - x) 0) as [Hle|Hgt].
    + constructor; [now constructor|]. constructor. lia.
    + constructor; [exact IH|].
      destruct Hhd as [|z l' Hyz]; simpl.
      * constructor. lia.
      * unfold descending. destruct (z - x <=? 0); constructor; lia.
Qed.

Lemma js_sort_descending l : Sorted Z.ge (js_sort descending l).
Proof.
  induction l as [|x l IH]; simpl; [constructor|].
  now apply js_insert_descending.
Qed.

(** ** Rolling the dice *)

Lemma pushRolls_store n : forall arr w,
  store (exec (pushRolls n arr) w) = store w.
Proof.
  induction n as [|n IH]; intros arr w; [reflexivity|].
  unfold exec in *. simpl. unfold mbind, M_bind, bind, rollDice. simpl.
  now rewrite IH.
Qed.

Lemma pushRolls_length n : forall arr w,
  length (eval (pushRolls n arr) w) = (length arr + n)%nat.
Proof.
  induction n as [|n IH]; intros arr w.
  - unfold eval. simpl. lia.
  - unfold eval in *. simpl. unfold mbind, M_bind, bind, rollDice. simpl.
    rewrite IH, length_app. simpl. lia.
Qed.

Lemma rollSides_store sides tr : forall dices w,
  store (exec (rollSides sides tr dices) w) = store w.
Proof.
  induction sides as [|side rest IH]; intros dices w; [reflexivity|].
  unfold exec in *. simpl. unfold mbind, M_bind, bind.
  pose proof (pushRolls_store
    (Z.to_nat (nextDiceCount side (sget tr side))) (sget dices side) w) as Hp.
  unfold exec in Hp.
  destruct (pushRolls _ _ w) as [arr w1]. simpl in Hp.
  now rewrite IH.
Qed.

(** Each side gets as many dice as [nextDiceCount] says. *)
Lemma rollSides_length tr w side :
  length (sget (eval (rollSides Sides_values tr noDices) w) side)
  = Z.to_nat (nextDiceCount side (sget tr side)).
Proof.
  unfold eval, Sides_values. simpl. unfold mbind, M_bind, bind.
  pose proof (pushRolls_length
    (Z.to_nat (nextDiceCount Attack (attack tr))) [] w) as Ha.
  unfold eval in Ha.
  destruct (pushRolls _ [] w) as [arrA w1]. simpl in Ha.
  pose proof (pushRolls_length
    (Z.to_nat (nextDiceCount Defense (defense tr))) [] w1) as Hd.
  unfold eval in Hd.
  destruct (pushRolls _ [] w1) as [arrD w2]. simpl in Hd.
  destruct side; simpl; rewrite js_sort_length; assumption.
Qed.

(** Each side's dice end up sorted, highest first. *)
Lemma rollSides_sorted tr w side :
  Sorted Z.ge (sget (eval (rollSides Sides_values tr noDices) w) side).
Proof.
  unfold eval, Sides_values. simpl. unfold mbind, M_bind, bind.
  destruct (pushRolls _ [] w) as [arrA w1].
  destruct (pushRolls _ [] w1) as [arrD w2].
  destruct side; simpl; apply js_sort_descending.
Qed.

(** ** The comparison loop *)

(** After [k] passes the array still has its [n] cells, the first [k]
    hold the winners of their pairs, and the wins add up to [k]. *)
Lemma compareStep_prefix dices (n k : nat) :
  (k <= n)%nat ->
  let acc := foldl (compareStep dices)
               (replicate n None, {| attack := 0; defense := 0 |}) (seq 0 k) in
  length acc.1 = n
  /\ 0 <= attack acc.2 /\ 0 <= defense acc.2
  /\ attack acc.2 + defense acc.2 = Z.of_nat k
  /\ (forall i, (i < k)%nat -> acc.1 !! i = Some (Some (pairWinner dices i)))
  /\ (forall i, (k <= i < n)%nat -> acc.1 !! i = Some None).
Proof.
  induction k as [|k IH]; intros Hk; cbv zeta.
  - simpl. rewrite length_replicate. repeat split; try lia.
    intros i Hi. apply lookup_replicate_2. lia.
  - rewrite seq_S, foldl_snoc.
    specialize (IH ltac:(lia)). cbv zeta in IH.
    destruct IH as (Hlen & Ha & Hd & Hsum & Hfilled & Hholes).
    destruct (foldl _ _ (seq 0 k)) as [rounds wins]. simpl in *.
    rewrite length_insert.
    split; [exact Hlen|].
    split; [destruct (pairWinner dices k); simpl; lia|].
    split; [destruct (pairWinner dices k); simpl; lia|].
    split; [destruct (pairWinner dices k); simpl; lia|].
    split.
    + intros i Hi. destruct (decide (i = k)) as [->|Hne].
      * apply list_lookup_insert_eq. lia.
      * rewrite list_lookup_insert_ne by congruence. apply Hfilled. lia.
    + intros i Hi. rewrite list_lookup_insert_ne by lia. apply Hholes. lia.
Qed.

Lemma compareDices_spec (roundCount : Z) dices :
  let rw := compareDices roundCount dices in
  length rw.1 = Z.to_nat roundCount
  /\ 0 <= attack rw.2 /\ 0 <= defense rw.2
  /\ attack rw.2 + defense rw.2 = Z.max 0 roundCount
  /\ (forall i, (i < Z.to_nat roundCount)%nat ->
        rw.1 !! i = Some (Some (pairWinner dices i))).
Proof.
  pose proof (compareStep_prefix dices (Z.to_nat roundCount)
                (Z.to_nat roundCount) (le_n _)) as H.
  simpl in H. unfold compareDices. simpl.
  destruct H as (H1 & H2 & H3 & H4 & H5 & _).
  repeat split; try assumption. lia.
Qed.

(** ** The store after an exchange *)

Lemma nextRoundCount_run w :
  nextRoundCount w
  = (Z.max 0 (Z.min (Z.min MAX_DICE_ROUNDS (defense (troops (store w))))
                (attack (troops (store w)) - 1)), w).
Proof. reflexivity. Qed.

(** [rollDices] written out on the data fields: [rc] is the round count,
    [dices] the sorted dice and [rw] the result of the comparison loop. *)
Lemma rollDices_store w :
  let s := store w in
  let rc := eval nextRoundCount w in
  let dices := eval (rollSides Sides_values (troops s) noDices) w in
  let rw := compareDices rc dices in
  let lost := {| attack := rc - attack rw.2; defense := rc - defense rw.2 |} in
  let updated := {| attack := attack (troops s) - attack lost;
                    defense := defense (troops s) - defense lost |} in
  store (exec rollDices w)
  = {| state :=
         if defense updated =? 0 then Finished
         else if attack updated <=? 1 then Finished
         else state s;
       initialTroops := initialTroops s;
       troops := updated;
       rolls := rolls s ++
         [RollDice.mk dices rw.1
            (if attack rw.2 >? defense rw.2 then Attack else Defense) lost];
       winner :=
         if defense updated =? 0 then Some Attack
         else if attack updated <=? 1 then Some Defense
         else winner s |}.
Proof.
  intros s rc dices rw lost updated.
  assert (Hrun : rollSides Sides_values (troops s) noDices w
                 = (dices, exec (rollSides Sides_values (troops s) noDices) w)).
  { subst dices. unfold eval, exec. now destruct (rollSides _ _ _ w). }
  pose proof (rollSides_store Sides_values (troops s) noDices w) as Hst.
  assert (Hrc : nextRoundCount w = (rc, w)) by reflexivity.
  unfold exec at 1. unfold rollDices, mbind, M_bind, bind, get.
  fold s. rewrite Hrc, Hrun. fold rw.
  clearbody rc dices.
  destruct rw as [rounds wins]. unfold set.
  cbn [store fst snd sget attack defense] in *.
  rewrite Hst. subst updated lost s.
  cbn [store fst snd sget attack defense state winner].
  destruct (_ =? 0); [reflexivity|].
  destruct (_ <=? 1); reflexivity.
Qed.

(** The round count is between [0] and [3], leaves one attacking troop
    behind and never exceeds the defending troops. *)
Lemma nextRoundCount_bounds w :
  let rc := eval nextRoundCount w in
  0 <= rc <= MAX_DICE_ROUNDS
  /\ (0 < rc -> rc <= attack (troops (store w)) - 1
               /\ rc <= defense (troops (store w))).
Proof. unfold eval. rewrite nextRoundCount_run. simpl. unfold MAX_DICE_ROUNDS. lia. Qed.

(** The troops after an exchange: each side loses the pairs the other
    side won, between none and all of the rounds. *)
Lemma rollDices_troops w :
  let rc := eval nextRoundCount w in
  let t := troops (store w) in
  let t' := troops (store (exec rollDices w)) in
  attack t - rc <= attack t' <= attack t
  /\ defense t - rc <= defense t' <= defense t
  /\ attack t' + defense t' = attack t + defense t - rc.
Proof.
  cbv zeta. rewrite rollDices_store. cbn [troops attack defense].
  pose proof (nextRoundCount_bounds w) as [Hrc _].
  pose proof (compareDices_spec (eval nextRoundCount w)
    (eval (rollSides Sides_values (troops (store w)) noDices) w))
    as (_ & Ha & Hd & Hsum & _).
  cbv zeta in Hsum, Ha, Hd. lia.
Qed.

(** ** [play], by phase *)

Lemma play_Finished w :
  state (store w) = Finished -> play w = reset w.
Proof.
  intros H. unfold play, mbind, M_bind, bind, get.
  destruct (decide (state (store w) = Finished)); [reflexivity|contradiction].
Qed.

Lemma play_not_Finished w :
  state (store w) <> Finished ->
  play w = rollDices {| store := started (store w); source := source w |}.
Proof.
  intros H. unfold play, mbind, M_bind, bind, get, started.
  destruct (decide (state (store w) = Finished)); [contradiction|].
  destruct (decide (state (store w) = Waiting)); [reflexivity|].
  now destruct w.
Qed.

Lemma play_Rolling w : state (store w) = Rolling -> play w = rollDices w.
Proof.
  intros H. rewrite play_not_Finished by congruence.
  unfold started. destruct (decide _) as [E|_]; [congruence|]. now destruct w.
Qed.

Lemma started_troops s : troops (started s) = troops s.
Proof. unfold started. now destruct (decide _). Qed.

Lemma started_state s : state s <> Finished -> state (started s) = Rolling.
Proof.
  unfold started. destruct (decide _); [reflexivity|].
  destruct (state s); congruence.
Qed.

(** ** Reading the last roll *)

Lemma js_index_last {A} (l : list A) (x : A) :
  js_index (l ++ [x]) (Z.of_nat (length (l ++ [x])) - 1) = Some x.
Proof.
  unfold js_index. rewrite length_app. simpl.
  destruct (Z.ltb_spec (Z.of_nat (length l + 1) - 1) 0) as [H|_]; [lia|].
  replace (Z.to_nat (Z.of_nat (length l + 1) - 1)) with (length l) by lia.
  apply list_lookup_middle. reflexivity.
Qed.

Lemma getLastRoll_rollDices w :
  exists r, eval getLastRoll (exec rollDices w) = Some r
            /\ rolls (store (exec rollDices w)) = rolls (store w) ++ [r].
Proof.
  unfold eval at 1. unfold getLastRoll, mbind, M_bind, bind, get, mret, M_ret, ret.
  cbn [fst]. rewrite rollDices_store. cbn [rolls].
  eexists. split; [apply js_index_last | reflexivity].
Qed.

(** ** Troop counts stay non-negative *)

Lemma rollDices_nonneg w :
  nonNegative (troops (store w)) ->
  nonNegative (troops (store (exec rollDices w)))
  /\ forall side, sget (troops (store (exec rollDices w))) side
                  <= sget (troops (store w)) side.
Proof.
  intros [Hva Hvd].
  pose proof (rollDices_troops w) as (HA & HD & _).
  pose proof (nextRoundCount_bounds w) as (Hrc & Hpos). cbv zeta in *.
  split; [split; lia|]. intros []; simpl; lia.
Qed.

Lemma operations_nonneg w :
  nonNegative (troops (store w)) ->
  (forall side value,
      nonNegative (troops (store (exec (setTroops side value) w))))
  /\ nonNegative (troops (store (exec play w)))
  /\ nonNegative (troops (store (exec reset w))).
Proof.
  intros [Ha Hd]. split; [|split].
  - intros side value. unfold exec, setTroops, set. cbn [snd store troops].
    rewrite Math_max_two. destruct side; split; simpl; lia.
  - destruct (decide (state (store w) = Finished)) as [E|E].
    + unfold exec. rewrite (play_Finished w E). split; cbn; lia.
    + unfold exec. rewrite (play_not_Finished w E).
      apply rollDices_nonneg. cbn. rewrite started_troops. now split.
  - split; cbn; lia.
Qed.

(** ** Sequences of calls *)

(** Running a sequence of calls, one call at a time. *)
Lemma exec_calls_cons op ops w :
  exec (calls (op :: ops)) w = exec (calls ops) (exec (call op) w).
Proof.
  unfold exec. simpl. unfold mbind, M_bind, bind.
  now destruct (call op w).
Qed.

(** The outcome of the checks that close [rollDices], on the troops it
    has just stored. *)
Lemma rollDices_checks w :
  let g := store (exec rollDices w) in
  (defense (troops g) = 0 -> state g = Finished /\ winner g = Some Attack)
  /\ (defense (troops g) <> 0 -> attack (troops g) <= 1 ->
      state g = Finished /\ winner g = Some Defense)
  /\ (defense (troops g) <> 0 -> 1 < attack (troops g) ->
      state g = state (store w) /\ winner g = winner (store w)).
Proof.
  cbv zeta. rewrite rollDices_store. cbn [troops state winner attack defense].
  set (a := attack (troops (store w)) - _).
  set (d := defense (troops (store w)) - _).
  destruct (Z.eqb_spec d 0) as [Hd|Hd];
    destruct (Z.leb_spec a 1) as [Ha|Ha];
    repeat split; intros; try reflexivity; try lia.
Qed.

(** One call keeps the troop counts non-negative and, unless it is a
    [setTroops] in a finished game, keeps finished games explained by
    the closing checks. *)
Lemma call_preserves op w :
  nonNegative (troops (store w)) ->
  (state (store w) = Finished -> endedByChecks (store w)) ->
  setTroopsBeforeFinish [op] w = true ->
  let g := store (exec (call op) w) in
  nonNegative (troops g) /\ (state g = Finished -> endedByChecks g).
Proof.
  intros Hnn Hend Hguard. cbv zeta.
  destruct (operations_nonneg w Hnn) as (Hset & Hplay & Hreset).
  destruct op as [side value| |]; cbn [call].
  - split; [apply Hset|].
    cbn in Hguard. rewrite andb_true_r in Hguard.
    apply bool_decide_eq_true in Hguard.
    unfold exec, setTroops, set. cbn [snd store state]. intros E. contradiction.
  - split; [exact Hplay|].
    destruct (decide (state (store w) = Finished)) as [E|E].
    + unfold exec. rewrite (play_Finished w E). cbn. discriminate.
    + unfold exec in *. rewrite (play_not_Finished w E) in *.
      set (v := {| store := started (store w); source := source w |}) in *.
      pose proof (rollDices_checks v) as (H0 & H1 & H2).
      cbv zeta in H0, H1, H2. unfold exec in H0, H1, H2.
      destruct Hplay as [Hpa Hpd]. intros Hfin.
      destruct (decide (defense (troops (store (rollDices v).2)) = 0))
        as [Hd|Hd].
      * left. split; [exact Hd | now apply H0].
      * destruct (Z.le_gt_cases
          (attack (troops (store (rollDices v).2))) 1) as [Ha|Ha].
        -- right. split; [lia|]. split; [exact Ha | now apply H1].
        -- destruct (H2 Hd ltac:(lia)) as [Hs _].
           rewrite Hs in Hfin. cbn in Hfin.
           rewrite started_state in Hfin by exact E. discriminate.
  - split; [exact Hreset|]. cbn. discriminate.
Qed.

Lemma calls_preserve ops : forall w,
  nonNegative (troops (store w)) ->
  (state (store w) = Finished -> endedByChecks (store w)) ->
  setTroopsBeforeFinish ops w = true ->
  let g := store (exec (calls ops) w) in
  nonNegative (troops g) /\ (state g = Finished -> endedByChecks g).
Proof.
  induction ops as [|op rest IH]; intros w Hnn Hend Hguard; cbv zeta.
  - now split.
  - rewrite exec_calls_cons.
    cbn [setTroopsBeforeFinish] in Hguard.
    apply andb_true_iff in Hguard as [Hop Hrest].
    destruct (call_preserves op w Hnn Hend) as [Hnn' Hend'].
    { cbn [setTroopsBeforeFinish]. now rewrite Hop. }
    now apply IH.
Qed.

(** ** Configuring, and the history along a sequence of calls *)

Lemma exec_configure_cons c cfg w :
  exec (configure (c :: cfg)) w
  = exec (configure cfg) (exec (setTroops c.1 c.2) w).
Proof. unfold configure. cbn [map]. apply exec_calls_cons. Qed.

Lemma configure_keeps cfg : forall w,
  nonNegative (troops (store w)) ->
  let g := store (exec (configure cfg) w) in
  state g = state (store w) /\ rolls g = rolls (store w)
  /\ winner g = winner (store w) /\ nonNegative (troops g).
Proof.
  induction cfg as [|c cfg IH]; intros w Hnn; cbv zeta.
  - split; [reflexivity|]. split; [reflexivity|]. split; [reflexivity|].
    exact Hnn.
  - rewrite exec_configure_cons.
    destruct (operations_nonneg w Hnn) as (Hset & _).
    destruct (IH _ (Hset c.1 c.2)) as (Hs & Hr & Hw & Hn).
    rewrite Hs, Hr, Hw.
    split; [reflexivity|]. split; [reflexivity|]. split; [reflexivity|].
    exact Hn.
Qed.

Lemma nextDiceCount_covers w side :
  eval nextRoundCount w <= nextDiceCount side (sget (troops (store w)) side).
Proof.
  unfold eval. rewrite nextRoundCount_run. cbn [fst].
  unfold nextDiceCount, MAX_DICE_ROUNDS.
  destruct side; cbn [sget];
    [set (t := attack (troops (store w)))
    |set (t := defense (troops (store w)))];
    destruct (decide _) as [E|E]; try congruence;
    rewrite Z.geb_leb;
    repeat match goal with
           | |- context [?x <=? ?y] => destruct (Z.leb_spec x y)
           | |- context [?x =? ?y] => destruct (Z.eqb_spec x y)
           end; lia.
Qed.

Lemma rollDices_history w :
  let g := store (exec rollDices w) in
  rolls g <> [] /\ (state g = Finished \/ state g = state (store w)).
Proof.
  cbv zeta. rewrite rollDices_store. cbn [rolls state]. split.
  - intros H. apply app_eq_nil in H as [_ H]. discriminate.
  - destruct (_ =? 0); [now left|]. destruct (_ <=? 1); [now left | now right].
Qed.

Lemma call_history op w :
  historyMatchesPhase (store w) ->
  historyMatchesPhase (store (exec (call op) w)).
Proof.
  intros Hinv. destruct op as [side value| |]; cbn [call].
  - exact Hinv.
  - destruct (decide (state (store w) = Finished)) as [E|E].
    + unfold exec. rewrite (play_Finished w E). now split.
    + unfold exec. rewrite (play_not_Finished w E).
      set (v := {| store := started (store w); source := source w |}).
      destruct (rollDices_history v) as [Hne Hst]. unfold exec in *.
      assert (Hv : state (store v) = Rolling) by now apply started_state.
      split; [intros H; contradiction|].
      intros H. destruct Hst as [Hst|Hst]; congruence.
  - now split.
Qed.

(** ** The roll an exchange records *)

(** The roll that an exchange records, which [getLastRoll] then gives. *)
Lemma rollDices_recorded w :
  let rc := eval nextRoundCount w in
  let dices := eval (rollSides Sides_values (troops (store w)) noDices) w in
  let rw := compareDices rc dices in
  eval getLastRoll (exec rollDices w)
  = Some (RollDice.mk dices rw.1
            (if attack rw.2 >? defense rw.2 then Attack else Defense)
            {| attack := rc - attack rw.2; defense := rc - defense rw.2 |}).
Proof.
  cbv zeta. destruct (getLastRoll_rollDices w) as (r & Hlast & Hrolls).
  rewrite rollDices_store in Hrolls. cbn [rolls] in Hrolls.
  apply app_inj_tail in Hrolls as [_ Hr]. now rewrite Hlast, Hr.
Qed.

Lemma roundsWonBy_fill side r (l : list (option Sides)) : forall k,
  l !! k = Some None ->
  roundsWonBy side (<[k := Some r]> l)
  = roundsWonBy side l + (if decide (r = side) then 1 else 0).
Proof.
  unfold roundsWonBy. induction l as [|x l IH]; intros k Hk; [discriminate|].
  destruct k as [|k].
  - cbn in Hk. injection Hk as ->.
    change (<[0%nat := Some r]> (None :: l)) with (Some r :: l).
    rewrite !filter_cons.
    destruct (decide (Some r = Some side)) as [E|E];
      destruct (decide (None = Some side)) as [E'|_]; try discriminate;
      destruct (decide (r = side)) as [E''|E'']; try congruence;
      cbn [length]; lia.
  - cbn in Hk. specialize (IH k Hk).
    change (<[S k := Some r]> (x :: l)) with (x :: <[k := Some r]> l).
    rewrite !filter_cons.
    destruct (decide (x = Some side)); cbn [length];
      rewrite ?Nat2Z.inj_succ, IH; destruct (decide (r = side)); lia.
Qed.

(** Throughout the comparison loop the win counts are the numbers of
    entries of [rounds] that name each side. *)
Lemma compareStep_wins dices (n k : nat) side :
  (k <= n)%nat ->
  let acc := foldl (compareStep dices)
               (replicate n None, {| attack := 0; defense := 0 |}) (seq 0 k) in
  sget acc.2 side = roundsWonBy side acc.1.
Proof.
  induction k as [|k IH]; intros Hk; cbv zeta.
  - cbn [seq foldl snd fst]. unfold roundsWonBy.
    replace (filter (fun r => r = Some side) (replicate n None))
      with (@nil (option Sides)); [now destruct side|].
    symmetry. induction n as [|n IHn]; [reflexivity|].
    cbn [replicate]. rewrite filter_cons.
    destruct (decide (None = Some side)); [discriminate|]. apply IHn. lia.
  - rewrite seq_S, foldl_snoc.
    specialize (IH ltac:(lia)). cbv zeta in IH.
    destruct (compareStep_prefix dices n k ltac:(lia))
      as (_ & _ & _ & _ & _ & Hholes).
    destruct (foldl _ _ (seq 0 k)) as [rounds wins]. cbn [fst snd] in *.
    cbn [compareStep Nat.add fst snd].
    rewrite roundsWonBy_fill by (apply Hholes; lia).
    rewrite <- IH.
    destruct (pairWinner dices k), side; cbn [sget sset attack defense];
      destruct (decide _); try congruence; lia.
Qed.

(** * The claims *)

(** Claim C1.  From phase Rolling with troops 4 / 4, when the dice of the
    exchange come out as Attack [6,5,4] and Defense [6,3,1], the exchange
    records the pair winners Defense, Attack, Attack (the tie 6 / 6 goes
    to Defense), the winner Attack and the losses 1 / 2, leaves troops
    3 / 2 and keeps the phase Rolling.  In this phase [play] is the
    exchange itself. *)
Theorem C1_exchange_scenario w :
  state (store w) = Rolling ->
  troops (store w) = {| attack := 4; defense := 4 |} ->
  eval (rollSides Sides_values (troops (store w)) noDices) w
    = {| attack := [6; 5; 4]; defense := [6; 3; 1] |} ->
  let g := store (exec rollDices w) in
  exec play w = exec rollDices w
  /\ rolls g = rolls (store w) ++
       [RollDice.mk {| attack := [6; 5; 4]; defense := [6; 3; 1] |}
          [Some Defense; Some Attack; Some Attack]
          Attack
          {| attack := 1; defense := 2 |}]
  /\ troops g = {| attack := 3; defense := 2 |}
  /\ state g = Rolling.
Proof.
  intros Hst Htr Hdices g. subst g.
  split; [unfold exec; now rewrite play_Rolling|].
  rewrite rollDices_store. cbv zeta. rewrite Hdices.
  unfold eval. rewrite nextRoundCount_run, Htr, Hst. cbn.
  repeat split; reflexivity.
Qed.

Lemma C1_exchange_scenario_witness :
  let w := {| store := {| state := Rolling;
                          initialTroops := {| attack := 4; defense := 4 |};
                          troops := {| attack := 4; defense := 4 |};
                          rolls := [];
                          winner := None |};
              source := sourceOf [5; 4; 6; 1; 6; 3] |} in
  troops (store (exec play w)) = {| attack := 3; defense := 2 |}
  /\ state (store (exec play w)) = Rolling.
Proof.
  intros w.
  destruct (C1_exchange_scenario w) as (Hplay & _ & Htroops & Hstate);
    [reflexivity | reflexivity | reflexivity |].
  rewrite Hplay. split; [exact Htroops | exact Hstate].
Defined.

(** Claim C2.  From a store with non-negative troop counts, [setTroops],
    [play] and [reset] all leave non-negative troop counts, and an
    exchange, whether reached through [play] in an unfinished game or
    taken alone, raises the count of neither side. *)
Theorem C2_troops_nonnegative_nonincreasing w :
  nonNegative (troops (store w)) ->
  (forall side value,
      nonNegative (troops (store (exec (setTroops side value) w))))
  /\ nonNegative (troops (store (exec play w)))
  /\ nonNegative (troops (store (exec reset w)))
  /\ nonNegative (troops (store (exec rollDices w)))
  /\ (forall side,
        sget (troops (store (exec rollDices w))) side
        <= sget (troops (store w)) side)
  /\ (state (store w) <> Finished ->
      forall side,
        sget (troops (store (exec play w))) side
        <= sget (troops (store w)) side).
Proof.
  intros Hnn.
  destruct (operations_nonneg w Hnn) as (Hset & Hplay & Hreset).
  destruct (rollDices_nonneg w Hnn) as (Hroll & Hle).
  repeat split; try assumption; try apply Hset; try apply Hplay;
    try apply Hreset; try apply Hroll.
  intros E side. unfold exec. rewrite (play_not_Finished w E).
  set (v := {| store := started (store w); source := source w |}).
  assert (Hv : troops (store v) = troops (store w)) by apply started_troops.
  rewrite <- Hv. apply (rollDices_nonneg v). now rewrite Hv.
Qed.

Lemma C2_troops_nonnegative_nonincreasing_witness :
  let w := initialWorld (sourceOf [2; 2; 2; 5; 5; 5]) in
  troops (store (exec play w)) = {| attack := 1; defense := 4 |}
  /\ nonNegative (troops (store (exec play w)))
  /\ attack (troops (store (exec play w))) <= attack (troops (store w)).
Proof.
  intros w.
  assert (H0 : nonNegative (troops (store w))) by (split; simpl; lia).
  destruct (C2_troops_nonnegative_nonincreasing w H0)
    as (_ & Hplay & _ & _ & _ & Hle).
  split; [reflexivity|]. split; [exact Hplay|].
  apply (Hle ltac:(discriminate) Attack).
Defined.

(** Claim C3, as amended.  The checks that close an exchange run in this
    order on the updated troops: no defending troop left finishes the
    game for Attack; otherwise at most one attacking troop left finishes
    it for Defense; otherwise phase and winner stay as they were, and a
    [play] in an unfinished game leaves the phase Rolling.  Hence a
    [play] in an unfinished game with non-negative troops ends either
    finished, with the troops and the winner the checks give, or rolling;
    and a finished game reached from the initial store shows one of the
    two endings as long as no [setTroops] was called while it was
    finished. *)
Theorem C3_finish_checks w ops src :
  (let g := store (exec rollDices w) in
   (defense (troops g) = 0 -> state g = Finished /\ winner g = Some Attack)
   /\ (defense (troops g) <> 0 -> attack (troops g) <= 1 ->
       state g = Finished /\ winner g = Some Defense)
   /\ (defense (troops g) <> 0 -> 1 < attack (troops g) ->
       state g = state (store w) /\ winner g = winner (store w)))
  /\ (state (store w) <> Finished -> nonNegative (troops (store w)) ->
      let g := store (exec play w) in
      (state g = Finished /\ endedByChecks g)
      \/ (state g = Rolling /\ 0 < defense (troops g)
          /\ 1 < attack (troops g)))
  /\ (setTroopsBeforeFinish ops (initialWorld src) = true ->
      let g := store (exec (calls ops) (initialWorld src)) in
      state g = Finished -> endedByChecks g).
Proof.
  split; [apply rollDices_checks|]. split.
  - intros E Hnn. cbv zeta. unfold exec. rewrite (play_not_Finished w E).
    set (v := {| store := started (store w); source := source w |}).
    pose proof (rollDices_checks v) as (H0 & H1 & H2).
    assert (Hv : nonNegative (troops (store v))).
    { subst v. cbn. now rewrite started_troops. }
    destruct (rollDices_nonneg v Hv) as ([Hpa Hpd] & _).
    cbv zeta in H0, H1, H2. unfold exec in *.
    destruct (decide (defense (troops (store (rollDices v).2)) = 0))
      as [Hd|Hd].
    + left. destruct (H0 Hd) as [Hs Hw]. split; [exact Hs|]. now left.
    + destruct (Z.le_gt_cases
        (attack (troops (store (rollDices v).2))) 1) as [Ha|Ha].
      * left. destruct (H1 Hd Ha) as [Hs Hw]. split; [exact Hs|].
        right. split; [lia|]. now split.
      * right. destruct (H2 Hd ltac:(lia)) as [Hs _].
        split; [|split; lia].
        rewrite Hs. subst v. cbn. now apply started_state.
  - intros Hguard. cbv zeta.
    apply (calls_preserve ops (initialWorld src)); try assumption.
    + split; cbn; lia.
    + cbn. discriminate.
Qed.

Lemma C3_finish_checks_witness :
  let w := initialWorld (sourceOf []) in
  let ops := [SetTroops Attack (Num 2); Play] in
  let g := store (exec (calls ops) w) in
  state (store (exec play w)) = Finished
  /\ endedByChecks (store (exec play w))
  /\ state g = Finished /\ endedByChecks g.
Proof.
  intros w ops g.
  destruct (C3_finish_checks w ops (sourceOf [])) as (_ & Hplay & Hinv).
  assert (Hfin : state g = Finished) by reflexivity.
  assert (Hpfin : state (store (exec play w)) = Finished) by reflexivity.
  destruct (Hplay ltac:(discriminate) ltac:(split; cbn; lia))
    as [[_ Hend]|[Hroll _]].
  - split; [exact Hpfin|]. split; [exact Hend|].
    split; [exact Hfin|]. apply Hinv; reflexivity.
  - rewrite Hpfin in Hroll. discriminate.
Defined.

(** The claim C3 as first stated, that every finished state has no
    defending troop left or at most one attacking troop, fails: after the
    game has ended, [setTroops] still changes the troops. *)
Lemma C3_finished_state_counterexample :
  let ops := [SetTroops Attack (Num 2); Play; SetTroops Attack (Num 10)] in
  let g := store (exec (calls ops) (initialWorld (sourceOf [1; 6; 6; 6]))) in
  state g = Finished
  /\ troops g = {| attack := 10; defense := 4 |}
  /\ winner g = Some Defense
  /\ ~ (defense (troops g) = 0 \/ attack (troops g) <= 1)
  /\ ~ endedByChecks g.
Proof.
  intros ops g.
  assert (Hs : state g = Finished) by reflexivity.
  assert (Ht : troops g = {| attack := 10; defense := 4 |}) by reflexivity.
  assert (Hw : winner g = Some Defense) by reflexivity.
  clearbody g. unfold endedByChecks. rewrite Ht. cbn [attack defense].
  repeat split; try assumption; lia.
Qed.

(** Claim C4.  In a finished game [play] is [reset] and nothing more: the
    store becomes the default one (phase Waiting, troops 4 / 4, no roll,
    no winner) and no die is taken from the source. *)
Theorem C4_play_when_finished w :
  state (store w) = Finished ->
  exec play w = exec reset w
  /\ store (exec play w)
     = {| state := Waiting;
          initialTroops := {| attack := 0; defense := 0 |};
          troops := {| attack := 4; defense := 4 |};
          rolls := [];
          winner := None |}
  /\ store (exec play w) = initialState
  /\ source (exec play w) = source w.
Proof.
  intros E. unfold exec. rewrite (play_Finished w E). now repeat split.
Qed.

Lemma C4_play_when_finished_witness :
  let w := exec (calls [SetTroops Attack (Num 2); Play])
             (initialWorld (sourceOf [])) in
  state (store w) = Finished
  /\ store (exec play w) = initialState.
Proof.
  intros w. split; [reflexivity|].
  apply (C4_play_when_finished w). reflexivity.
Defined.

(** Claim C5.  The number of pairs of dice compared in an exchange is
    max(0, min(3, defending troops, attacking troops - 1)): this is what
    [nextRoundCount] returns, the recorded [rounds] has that many
    entries, every one of them holds the outcome of its pair of dice
    (both dice exist, and the attacker wins with the strictly higher
    one), and the pairs won by the two sides add up to it.  It is 3 for
    troops 4 / 4 and 0 for troops 1 / 5. *)
Theorem C5_round_count w :
  let a := attack (troops (store w)) in
  let d := defense (troops (store w)) in
  eval nextRoundCount w = Z.max 0 (Z.min 3 (Z.min d (a - 1)))
  /\ (exists r, eval getLastRoll (exec rollDices w) = Some r
        /\ Z.of_nat (length (RollDice.rounds r))
           = Z.max 0 (Z.min 3 (Z.min d (a - 1)))
        /\ (forall i, Z.of_nat i < Z.max 0 (Z.min 3 (Z.min d (a - 1))) ->
              exists x y,
                attack (RollDice.dices r) !! i = Some x
                /\ defense (RollDice.dices r) !! i = Some y
                /\ RollDice.rounds r !! i
                   = Some (Some (if x >? y then Attack else Defense)))
        /\ roundsWonBy Attack (RollDice.rounds r)
           + roundsWonBy Defense (RollDice.rounds r)
           = Z.max 0 (Z.min 3 (Z.min d (a - 1))))
  /\ (troops (store w) = {| attack := 4; defense := 4 |} ->
      eval nextRoundCount w = 3)
  /\ (troops (store w) = {| attack := 1; defense := 5 |} ->
      eval nextRoundCount w = 0).
Proof.
  cbv zeta.
  assert (Hrc : eval nextRoundCount w
     = Z.max 0 (Z.min 3 (Z.min (defense (troops (store w)))
                           (attack (troops (store w)) - 1)))).
  { unfold eval. rewrite nextRoundCount_run. cbn. unfold MAX_DICE_ROUNDS. lia. }
  split; [exact Hrc|]. split.
  - rewrite <- Hrc.
    set (rc := eval nextRoundCount w).
    set (dices := eval (rollSides Sides_values (troops (store w)) noDices) w).
    eexists. split; [apply rollDices_recorded|].
    cbn [RollDice.rounds RollDice.dices]. fold rc dices.
    destruct (compareDices_spec rc dices) as (Hlen & _ & _ & Hsum & Hfilled).
    pose proof (nextRoundCount_bounds w) as [Hb _]. fold rc in Hb.
    split; [rewrite Hlen; lia|]. split.
    + intros i Hi.
      assert (Hin : forall side, is_Some (sget dices side !! i)).
      { intros side. apply lookup_lt_is_Some.
        pose proof (rollSides_length (troops (store w)) w side) as Hl.
        pose proof (nextDiceCount_covers w side) as Hc.
        fold dices in Hl. fold rc in Hc. lia. }
      destruct (Hin Attack) as [x Hx]. destruct (Hin Defense) as [y Hy].
      cbn [sget] in Hx, Hy. exists x, y.
      split; [exact Hx|]. split; [exact Hy|].
      rewrite (Hfilled i) by lia. unfold pairWinner. cbn [sget].
      now rewrite Hx, Hy.
    + pose proof (compareStep_wins dices (Z.to_nat rc) (Z.to_nat rc) Attack
                    (le_n _)) as Ha.
      pose proof (compareStep_wins dices (Z.to_nat rc) (Z.to_nat rc) Defense
                    (le_n _)) as Hd.
      cbv zeta in Ha, Hd. fold (compareDices rc dices) in Ha, Hd.
      cbn [sget] in Ha, Hd. rewrite <- Ha, <- Hd. lia.
  - split; intros Htr; rewrite Hrc, Htr; reflexivity.
Qed.

Lemma C5_round_count_witness :
  eval nextRoundCount (initialWorld (sourceOf [])) = 3
  /\ eval nextRoundCount
       (exec (calls [SetTroops Attack (Num 1); SetTroops Defense (Num 5)])
          (initialWorld (sourceOf []))) = 0
  /\ exists r,
       eval getLastRoll
         (exec rollDices (initialWorld (sourceOf [6; 5; 4; 6; 3; 1]))) = Some r
       /\ RollDice.rounds r !! 0%nat = Some (Some Defense)
       /\ RollDice.rounds r !! 1%nat = Some (Some Attack).
Proof.
  split; [|split].
  - apply (C5_round_count (initialWorld (sourceOf []))). reflexivity.
  - apply (C5_round_count
      (exec (calls [SetTroops Attack (Num 1); SetTroops Defense (Num 5)])
         (initialWorld (sourceOf [])))). reflexivity.
  - destruct (C5_round_count (initialWorld (sourceOf [6; 5; 4; 6; 3; 1])))
      as (_ & (r & Hlast & _ & Hpairs & _) & _).
    destruct (Hpairs 0%nat ltac:(simpl; lia)) as (x0 & y0 & Hx0 & Hy0 & Hr0).
    destruct (Hpairs 1%nat ltac:(simpl; lia)) as (x1 & y1 & Hx1 & Hy1 & Hr1).
    exists r. split; [exact Hlast|].
    vm_compute in Hlast. injection Hlast as <-.
    cbn in Hx0, Hy0, Hx1, Hy1.
    injection Hx0 as <-. injection Hy0 as <-.
    injection Hx1 as <-. injection Hy1 as <-.
    split; [exact Hr0 | exact Hr1].
Defined.

(** Claim C6.  [setTroops side value] stores max(0, v) for that side,
    where v is the number given or the given function applied to the
    current count; a negative v gives 0.  The call always succeeds and
    changes nothing else: the other side, the phase, the snapshot, the
    history, the winner and the random source stay as they were. *)
Theorem C6_setTroops_clamps side value w :
  let v := match value with
           | Num n => n
           | Fn f => f (sget (troops (store w)) side)
           end in
  let w' := exec (setTroops side value) w in
  sget (troops (store w')) side = Z.max 0 v
  /\ (v < 0 -> sget (troops (store w')) side = 0)
  /\ (0 <= v -> sget (troops (store w')) side = v)
  /\ (forall other, other <> side ->
        sget (troops (store w')) other = sget (troops (store w)) other)
  /\ state (store w') = state (store w)
  /\ initialTroops (store w') = initialTroops (store w)
  /\ rolls (store w') = rolls (store w)
  /\ winner (store w') = winner (store w)
  /\ source w' = source w
  /\ setTroops side value w = (tt, w').
Proof.
  cbv zeta. unfold exec, setTroops, set.
  cbn [snd store source troops state initialTroops rolls winner].
  rewrite Math_max_two.
  assert (Hget : forall x, sget (sset side x (troops (store w))) side = x)
    by (intros x; now destruct side).
  rewrite Hget.
  split; [|split; [|split; [|split]]].
  - destruct value; reflexivity.
  - destruct value; lia.
  - destruct value; lia.
  - intros other Hne. destruct side, other; try reflexivity; congruence.
  - now repeat split.
Qed.

Lemma C6_setTroops_clamps_witness :
  let w := initialWorld (sourceOf []) in
  sget (troops (store (exec (setTroops Defense (Fn (fun n => n - 7))) w)))
    Defense = 0
  /\ sget (troops (store (exec (setTroops Attack (Num 9)) w))) Attack = 9.
Proof.
  intros w. split.
  - apply (C6_setTroops_clamps Defense (Fn (fun n => n - 7)) w). simpl. lia.
  - apply (C6_setTroops_clamps Attack (Num 9) w). simpl. lia.
Defined.

(** Claim C7, as amended.  The store starts in phase Waiting with troops
    4 / 4, and any run of [setTroops] calls from there leaves it in phase
    Waiting, without rolls or winner, with at least 0 troops on each
    side: the floor of [setTroops] is 0, not 1. *)
Theorem C7_configured_troops cfg src :
  let g := store (exec (configure cfg) (initialWorld src)) in
  troops (store (initialWorld src)) = {| attack := 4; defense := 4 |}
  /\ state g = Waiting
  /\ rolls g = [] /\ winner g = None
  /\ 0 <= attack (troops g) /\ 0 <= defense (troops g).
Proof.
  cbv zeta. split; [reflexivity|].
  destruct (configure_keeps cfg (initialWorld src)) as (Hs & Hr & Hw & Hn).
  { split; cbn; lia. }
  rewrite Hs, Hr, Hw. destruct Hn as [Ha Hd]. now repeat split.
Qed.

(** The claim C7 as first stated fails: one [setTroops] call with 0
    leaves a Waiting store with no attacking troop. *)
Lemma C7_minimum_one_counterexample :
  let g := store (exec (configure [(Attack, Num 0)])
                    (initialWorld (sourceOf []))) in
  state g = Waiting
  /\ troops g = {| attack := 0; defense := 4 |}
  /\ ~ (1 <= attack (troops g) /\ 1 <= defense (troops g)).
Proof.
  intros g.
  assert (Ht : troops g = {| attack := 0; defense := 4 |}) by reflexivity.
  split; [reflexivity|]. split; [exact Ht|].
  rewrite Ht. cbn. lia.
Qed.

(** Claim C8.  After any sequence of [setTroops], [play] and [reset]
    calls on the initial store, the list of rolls is empty exactly when
    the phase is Waiting. *)
Theorem C8_history_empty_iff_waiting ops src :
  let g := store (exec (calls ops) (initialWorld src)) in
  rolls g = [] <-> state g = Waiting.
Proof.
  cbv zeta. fold (historyMatchesPhase (store (exec (calls ops) (initialWorld src)))).
  assert (Hinit : historyMatchesPhase (store (initialWorld src))) by now split.
  revert Hinit. generalize (initialWorld src) as w.
  induction ops as [|op rest IH]; intros w Hw; [exact Hw|].
  rewrite exec_calls_cons. apply IH. now apply call_history.
Qed.

(** Claim C9.  When the round count is 0 the comparison loop does not
    run: both win counts are 0, the recorded winner is Defense (0 > 0 is
    false), both losses are 0, the troops are unchanged, and a roll with
    an empty [rounds] array is appended to the history all the same. *)
Theorem C9_zero_round_exchange w :
  eval nextRoundCount w = 0 ->
  let dices := eval (rollSides Sides_values (troops (store w)) noDices) w in
  let g := store (exec rollDices w) in
  let r := RollDice.mk dices [] Defense {| attack := 0; defense := 0 |} in
  compareDices (eval nextRoundCount w) dices
    = ([], {| attack := 0; defense := 0 |})
  /\ rolls g = rolls (store w) ++ [r]
  /\ eval getLastRoll (exec rollDices w) = Some r
  /\ troops g = troops (store w).
Proof.
  intros Hrc. cbv zeta.
  split; [now rewrite Hrc|].
  assert (Hrolls : rolls (store (exec rollDices w))
    = rolls (store w)
      ++ [RollDice.mk
            (eval (rollSides Sides_values (troops (store w)) noDices) w)
            [] Defense {| attack := 0; defense := 0 |}]).
  { rewrite rollDices_store. cbv zeta. rewrite Hrc. reflexivity. }
  split; [exact Hrolls|]. split.
  - destruct (getLastRoll_rollDices w) as (r & Hlast & Hr).
    rewrite Hr in Hrolls. apply app_inj_tail in Hrolls as [_ ->].
    exact Hlast.
  - rewrite rollDices_store. cbv zeta. rewrite Hrc.
    cbn [troops attack defense snd compareDices].
    change (compareDices 0 _).2 with {| attack := 0; defense := 0 |}.
    cbn [attack defense].
    destruct (troops (store w)) as [a d]. cbn [attack defense]. f_equal; lia.
Qed.

Lemma C9_zero_round_exchange_witness :
  let w := exec (calls [SetTroops Attack (Num 1); SetTroops Defense (Num 5)])
             (initialWorld (sourceOf [3; 2; 6])) in
  rolls (store (exec rollDices w))
  = [RollDice.mk {| attack := []; defense := [6; 3; 2] |} [] Defense
       {| attack := 0; defense := 0 |}]
  /\ troops (store (exec rollDices w)) = {| attack := 1; defense := 5 |}.
Proof.
  intros w.
  destruct (C9_zero_round_exchange w) as (_ & Hrolls & _ & Htroops);
    [reflexivity|].
  split; [exact Hrolls | exact Htroops].
Defined.

(** Claim C10.  Whatever the troop counts, each side rolls at least as
    many dice as there are rounds: [nextDiceCount] of a side is at least
    [nextRoundCount], the sorted array of that side has exactly that many
    dice, and so every index below the round count that the comparison
    loop reads holds a die. *)
Theorem C10_dice_cover_rounds w side :
  let rc := eval nextRoundCount w in
  let dices := eval (rollSides Sides_values (troops (store w)) noDices) w in
  rc <= nextDiceCount side (sget (troops (store w)) side)
  /\ Z.of_nat (length (sget dices side))
     = nextDiceCount side (sget (troops (store w)) side)
  /\ (forall i : nat, Z.of_nat i < rc -> is_Some (sget dices side !! i))
  /\ (forall i : Z, 0 <= i < rc -> is_Some (js_index (sget dices side) i)).
Proof.
  cbv zeta.
  pose proof (nextDiceCount_covers w side) as Hcov.
  pose proof (rollSides_length (troops (store w)) w side) as Hlen.
  pose proof (nextRoundCount_bounds w) as [Hrc _]. cbv zeta in Hrc.
  assert (Hlen' : Z.of_nat (length (sget (eval (rollSides Sides_values
                    (troops (store w)) noDices) w) side))
                  = nextDiceCount side (sget (troops (store w)) side))
    by lia.
  split; [exact Hcov|]. split; [exact Hlen'|]. split.
  - intros i Hi. apply lookup_lt_is_Some. lia.
  - intros i Hi. unfold js_index.
    destruct (Z.ltb_spec i 0) as [Hneg|_]; [lia|].
    apply lookup_lt_is_Some. lia.
Qed.

(** * Further properties of the store *)

(** ** Reading the store *)

(** X1.  [getLastRoll] reads the last element of the history and changes
    nothing: it returns nothing ([undefined]) on an empty history, where
    the index is [-1], and the newest roll otherwise. *)
Theorem X1_getLastRoll_last w :
  getLastRoll w = (last (rolls (store w)), w)
  /\ (rolls (store w) = [] -> eval getLastRoll w = None)
  /\ (forall l r, rolls (store w) = l ++ [r] -> eval getLastRoll w = Some r).
Proof.
  assert (H : getLastRoll w = (last (rolls (store w)), w)).
  { unfold getLastRoll, mbind, M_bind, bind, get, mret, M_ret, ret.
    f_equal. unfold js_index.
    destruct (rolls (store w)) as [|r l] eqn:E; [reflexivity|].
    destruct (Z.ltb_spec (Z.of_nat (length (r :: l)) - 1) 0) as [Hn|_];
      [simpl in Hn; lia|].
    rewrite last_lookup. f_equal. simpl. lia. }
  split; [exact H|]. unfold eval. rewrite H. cbn [fst]. split.
  - now intros ->.
  - intros l r ->. apply last_snoc.
Qed.

Lemma X1_getLastRoll_last_witness :
  eval getLastRoll (initialWorld (sourceOf [])) = None.
Proof.
  apply (X1_getLastRoll_last (initialWorld (sourceOf []))). reflexivity.
Defined.

(** Case analysis on the comparisons of [nextDiceCount] and of the round
    count. *)
Ltac dice_cases :=
  unfold nextDiceCount, MAX_DICE_ROUNDS;
  repeat match goal with
         | |- context [decide ?P] => destruct (decide P); try congruence
         end;
  rewrite ?Z.geb_leb;
  repeat match goal with
         | |- context [?x <=? ?y] => destruct (Z.leb_spec x y)
         | |- context [?x =? ?y] => destruct (Z.eqb_spec x y)
         end;
  try lia.

(** X2.  The dice table in closed form: the attacker rolls one die per
    troop beyond the first, the defender one die per troop, both between
    0 and 3 dice; so the attacker with [t] troops rolls what the defender
    rolls with [t - 1], and more troops never mean fewer dice. *)
Theorem X2_nextDiceCount_closed_form side t :
  nextDiceCount Attack t = Z.max 0 (Z.min 3 (t - 1))
  /\ nextDiceCount Defense t = Z.max 0 (Z.min 3 t)
  /\ 0 <= nextDiceCount side t <= 3
  /\ nextDiceCount Attack t = nextDiceCount Defense (t - 1)
  /\ (forall t', t <= t' -> nextDiceCount side t <= nextDiceCount side t').
Proof.
  split; [dice_cases|]. split; [dice_cases|]. split; [destruct side; dice_cases|].
  split; [dice_cases|].
  intros t' Ht. destruct side; dice_cases.
Qed.

(** X3.  The round count is the smaller of the two dice counts: every
    die of the side that rolls fewer dice is compared, and reading the
    count leaves the store and the source as they are. *)
Theorem X3_round_count_is_min_dice w :
  eval nextRoundCount w
  = Z.min (nextDiceCount Attack (sget (troops (store w)) Attack))
          (nextDiceCount Defense (sget (troops (store w)) Defense))
  /\ 0 <= eval nextRoundCount w <= 3
  /\ exec nextRoundCount w = w.
Proof.
  unfold eval, exec. rewrite nextRoundCount_run. cbn [fst snd sget].
  split; [dice_cases|]. split; [unfold MAX_DICE_ROUNDS; lia | reflexivity].
Qed.

(** ** The dice of an exchange *)

Lemma drawn_shift src from count :
  drawn (fun k => src (from + k)%nat) 0 count = drawn src from count.
Proof.
  unfold drawn.
  transitivity (map src (map (Nat.add from) (seq 0 count))).
  - symmetry. apply map_map.
  - f_equal. change (map (Nat.add from) (seq 0 count))
      with (Nat.add from <$> seq 0 count).
    rewrite fmap_add_seq. f_equal. lia.
Qed.

Lemma drawn_ext src src' from count :
  (forall k, src k = src' k) -> drawn src from count = drawn src' from count.
Proof. intros H. unfold drawn. apply map_ext. intros k. apply H. Qed.

(** [pushRolls] appends the next values of the source, in order, and
    moves the source on by as many calls. *)
Lemma pushRolls_run n : forall arr w,
  eval (pushRolls n arr) w = arr ++ drawn (source w) 0 n
  /\ forall k, source (exec (pushRolls n arr) w) k = source w (n + k)%nat.
Proof.
  induction n as [|n IH]; intros arr w.
  - unfold eval, exec, drawn. simpl. split; [now rewrite app_nil_r | reflexivity].
  - unfold eval, exec in *. simpl. unfold mbind, M_bind, bind, rollDice.
    destruct (IH (arr ++ [source w 0%nat])
                {| store := store w; source := fun k => source w (S k) |})
      as [Hv Hs].
    split.
    + rewrite Hv. cbn [source]. rewrite <- app_assoc. f_equal.
      change (fun k => source w (S k)) with (fun k => source w (1 + k)%nat).
      rewrite drawn_shift. reflexivity.
    + intros k. rewrite Hs. reflexivity.
Qed.

(** What [rollSides] rolls for the two sides, in terms of the source. *)
Lemma rollSides_run tr w :
  let na := Z.to_nat (nextDiceCount Attack (sget tr Attack)) in
  let nd := Z.to_nat (nextDiceCount Defense (sget tr Defense)) in
  eval (rollSides Sides_values tr noDices) w
  = {| attack := js_sort descending (drawn (source w) 0 na);
       defense := js_sort descending (drawn (source w) na nd) |}
  /\ forall k, source (exec (rollSides Sides_values tr noDices) w) k
               = source w (na + nd + k)%nat.
Proof.
  intros na nd. unfold eval, exec, Sides_values. simpl.
  unfold mbind, M_bind, bind.
  change (Z.to_nat (nextDiceCount Attack (attack tr))) with na.
  change (Z.to_nat (nextDiceCount Defense (defense tr))) with nd.
  destruct (pushRolls_run na [] w) as [Hva Hsa]. unfold eval, exec in Hva, Hsa.
  destruct (pushRolls na [] w) as [arrA w1]. cbn [fst snd] in Hva, Hsa.
  destruct (pushRolls_run nd [] w1) as [Hvd Hsd]. unfold eval, exec in Hvd, Hsd.
  destruct (pushRolls nd [] w1) as [arrD w2]. cbn [fst snd] in Hvd, Hsd.
  cbn [fst snd mret M_ret ret]. subst arrA arrD. cbn [app]. split.
  - f_equal. f_equal.
    rewrite (drawn_ext (source w1) (fun k => source w (na + k)%nat) 0 nd Hsa).
    apply drawn_shift.
  - intros k. rewrite Hsd, Hsa. f_equal. lia.
Qed.

(** The source after an exchange is the one [rollSides] leaves. *)
Lemma rollDices_source w :
  source (exec rollDices w)
  = source (exec (rollSides Sides_values (troops (store w)) noDices) w).
Proof.
  unfold exec at 1. unfold rollDices, mbind, M_bind, bind, get.
  rewrite nextRoundCount_run. unfold exec.
  destruct (rollSides Sides_values (troops (store w)) noDices w) as [dices w1].
  destruct (compareDices _ dices) as [rounds wins]. unfold set.
  cbn [fst snd sget attack defense].
  destruct (_ =? 0); [reflexivity|].
  destruct (_ <=? 1); reflexivity.
Qed.

(** X4.  The dice an exchange records are the values drawn from the
    random source, the attacker's first, each side's rearranged highest
    first; the exchange takes exactly as many values from the source as
    the two dice counts say. *)
Theorem X4_dice_from_source w :
  let na := Z.to_nat (nextDiceCount Attack (sget (troops (store w)) Attack)) in
  let nd := Z.to_nat (nextDiceCount Defense (sget (troops (store w)) Defense)) in
  exists r, eval getLastRoll (exec rollDices w) = Some r
    /\ attack (RollDice.dices r) ≡ₚ drawn (source w) 0 na
    /\ defense (RollDice.dices r) ≡ₚ drawn (source w) na nd
    /\ Sorted Z.ge (attack (RollDice.dices r))
    /\ Sorted Z.ge (defense (RollDice.dices r))
    /\ (forall k, source (exec rollDices w) k = source w (na + nd + k)%nat).
Proof.
  intros na nd. eexists. split; [apply rollDices_recorded|].
  cbn [RollDice.dices].
  destruct (rollSides_run (troops (store w)) w) as [Hd Hs].
  fold na nd in Hd, Hs. rewrite Hd. cbn [attack defense].
  split; [apply js_sort_perm|]. split; [apply js_sort_perm|].
  split; [apply js_sort_descending|]. split; [apply js_sort_descending|].
  intros k. rewrite rollDices_source. apply Hs.
Qed.

(** ** The outcome of the pairs *)

(** X5.  An exchange records one outcome per compared pair and no hole:
    pair [i] sets the [i]-th highest die of each side against the other,
    both dice exist, the attacker wins the pair only with the strictly
    higher die, and a tie goes to the defender. *)
Theorem X5_pair_outcomes w :
  exists r, eval getLastRoll (exec rollDices w) = Some r
    /\ Z.of_nat (length (RollDice.rounds r)) = eval nextRoundCount w
    /\ forall i, (i < length (RollDice.rounds r))%nat ->
         exists a d,
           attack (RollDice.dices r) !! i = Some a
           /\ defense (RollDice.dices r) !! i = Some d
           /\ (d < a -> RollDice.rounds r !! i = Some (Some Attack))
           /\ (a <= d -> RollDice.rounds r !! i = Some (Some Defense)).
Proof.
  eexists. split; [apply rollDices_recorded|].
  cbn [RollDice.rounds RollDice.dices].
  set (rc := eval nextRoundCount w).
  set (dices := eval (rollSides Sides_values (troops (store w)) noDices) w).
  destruct (compareDices_spec rc dices) as (Hlen & _ & _ & _ & Hfilled).
  pose proof (nextRoundCount_bounds w) as [Hrc _]. fold rc in Hrc.
  split; [rewrite Hlen; lia|].
  intros i Hi. rewrite Hlen in Hi.
  assert (Hin : forall side, is_Some (sget dices side !! i)).
  { intros side. apply lookup_lt_is_Some.
    pose proof (rollSides_length (troops (store w)) w side) as Hl.
    pose proof (nextDiceCount_covers w side) as Hc.
    fold dices in Hl. fold rc in Hc. lia. }
  destruct (Hin Attack) as [a Ha]. destruct (Hin Defense) as [d Hd].
  cbn [sget] in Ha, Hd. exists a, d.
  split; [exact Ha|]. split; [exact Hd|].
  rewrite (Hfilled i Hi). unfold pairWinner. cbn [sget].
  rewrite Ha, Hd. cbn [js_gt]. rewrite Z.gtb_ltb.
  destruct (Z.ltb_spec d a); split; intros; try reflexivity; lia.
Qed.

(** X6.  In the roll an exchange records, the troops a side loses are
    the pairs the other side won, as counted in [rounds], and the two
    losses add up to the round count; with troop counts within the safe
    integers, the troops stored afterwards are the previous ones less
    these losses. *)
Theorem X6_losses_are_pairs_lost w :
  exists r, eval getLastRoll (exec rollDices w) = Some r
    /\ attack (RollDice.troopsLost r) = roundsWonBy Defense (RollDice.rounds r)
    /\ defense (RollDice.troopsLost r) = roundsWonBy Attack (RollDice.rounds r)
    /\ attack (RollDice.troopsLost r) + defense (RollDice.troopsLost r)
       = eval nextRoundCount w
    /\ (safeTroops (troops (store w)) ->
        attack (troops (store (exec rollDices w)))
        = attack (troops (store w)) - attack (RollDice.troopsLost r)
        /\ defense (troops (store (exec rollDices w)))
           = defense (troops (store w)) - defense (RollDice.troopsLost r)).
Proof.
  eexists. split; [apply rollDices_recorded|].
  rewrite rollDices_store.
  cbn [RollDice.rounds RollDice.troopsLost troops attack defense].
  set (rc := eval nextRoundCount w).
  set (dices := eval (rollSides Sides_values (troops (store w)) noDices) w).
  destruct (compareDices_spec rc dices) as (_ & _ & _ & Hsum & _).
  pose proof (nextRoundCount_bounds w) as [Hrc _]. fold rc in Hrc.
  pose proof (compareStep_wins dices (Z.to_nat rc) (Z.to_nat rc) Attack
                (le_n _)) as Ha.
  pose proof (compareStep_wins dices (Z.to_nat rc) (Z.to_nat rc) Defense
                (le_n _)) as Hd.
  cbv zeta in Ha, Hd. fold (compareDices rc dices) in Ha, Hd.
  cbn [sget] in Ha, Hd. rewrite <- Ha, <- Hd.
  repeat split; lia.
Qed.

Lemma X6_losses_are_pairs_lost_witness :
  let w := initialWorld (sourceOf [2; 2; 2; 5; 5; 5]) in
  exists r, eval getLastRoll (exec rollDices w) = Some r
    /\ attack (troops (store (exec rollDices w)))
       = 4 - attack (RollDice.troopsLost r).
Proof.
  intros w.
  destruct (X6_losses_are_pairs_lost w) as (r & Hlast & _ & _ & _ & Hsafe).
  exists r. split; [exact Hlast|].
  apply Hsafe. unfold safeTroops, MAX_SAFE_INTEGER. simpl. lia.
Defined.

(** X7.  The winner an exchange records is the attacker exactly when
    the defender lost strictly more troops in it; equal losses, those of
    an exchange without any round included, name the defender. *)
Theorem X7_roll_winner w :
  exists r, eval getLastRoll (exec rollDices w) = Some r
    /\ (RollDice.winner r = Attack
        <-> attack (RollDice.troopsLost r) < defense (RollDice.troopsLost r))
    /\ (RollDice.winner r = Defense
        <-> defense (RollDice.troopsLost r) <= attack (RollDice.troopsLost r))
    /\ (RollDice.winner r = Attack
        <-> roundsWonBy Defense (RollDice.rounds r)
            < roundsWonBy Attack (RollDice.rounds r)).
Proof.
  eexists. split; [apply rollDices_recorded|].
  cbn [RollDice.rounds RollDice.troopsLost RollDice.winner attack defense].
  set (rc := eval nextRoundCount w).
  set (dices := eval (rollSides Sides_values (troops (store w)) noDices) w).
  pose proof (compareStep_wins dices (Z.to_nat rc) (Z.to_nat rc) Attack
                (le_n _)) as Ha.
  pose proof (compareStep_wins dices (Z.to_nat rc) (Z.to_nat rc) Defense
                (le_n _)) as Hd.
  cbv zeta in Ha, Hd. fold (compareDices rc dices) in Ha, Hd.
  cbn [sget] in Ha, Hd. rewrite <- Ha, <- Hd. rewrite Z.gtb_ltb.
  destruct (Z.ltb_spec (defense (compareDices rc dices).2)
                       (attack (compareDices rc dices).2));
    repeat split; intros; try reflexivity; try discriminate; lia.
Qed.

(** ** Troops across an exchange *)

(** The world in which [play] rolls, for a game that is not finished. *)
Lemma started_world_troops w :
  troops (store {| store := started (store w); source := source w |})
  = troops (store w).
Proof. apply started_troops. Qed.

(** X8.  One attacking troop always stays behind: an exchange that
    starts with at least one attacking troop leaves at least one, alone
    or through [play]; and with troop counts within the safe integers the
    troops of both sides together go down by exactly the round count. *)
Theorem X8_one_attacker_stays w :
  1 <= attack (troops (store w)) ->
  1 <= attack (troops (store (exec rollDices w)))
  /\ (state (store w) <> Finished ->
      1 <= attack (troops (store (exec play w))))
  /\ (safeTroops (troops (store w)) ->
      attack (troops (store (exec rollDices w)))
      + defense (troops (store (exec rollDices w)))
      = attack (troops (store w)) + defense (troops (store w))
        - eval nextRoundCount w).
Proof.
  intros Ha.
  assert (Hroll : forall v, 1 <= attack (troops (store v)) ->
                    1 <= attack (troops (store (exec rollDices v)))).
  { intros v Hv. pose proof (rollDices_troops v) as (HA & _).
    pose proof (nextRoundCount_bounds v) as (Hrc & Hpos). cbv zeta in *. lia. }
  split; [now apply Hroll|]. split.
  - intros E. unfold exec. rewrite (play_not_Finished w E).
    apply Hroll. now rewrite started_world_troops.
  - intros _. pose proof (rollDices_troops w) as (_ & _ & Hsum). exact Hsum.
Qed.

Lemma X8_one_attacker_stays_witness :
  let w := initialWorld (sourceOf [1; 1; 1; 6; 6; 6]) in
  1 <= attack (troops (store (exec play w)))
  /\ attack (troops (store (exec rollDices w)))
     + defense (troops (store (exec rollDices w)))
     = 4 + 4 - eval nextRoundCount w.
Proof.
  intros w.
  destruct (X8_one_attacker_stays w ltac:(simpl; lia)) as (_ & Hplay & Hsum).
  split.
  - apply Hplay. discriminate.
  - apply Hsum. unfold safeTroops, MAX_SAFE_INTEGER. simpl. lia.
Defined.

(** What a [play] in an unfinished game with non-negative troops leaves:
    either a finished game in which no round can be rolled, or a rolling
    one in which at least one can. *)
Lemma play_outcome w :
  state (store w) <> Finished -> nonNegative (troops (store w)) ->
  let w' := exec play w in
  (state (store w') = Finished /\ eval nextRoundCount w' = 0)
  \/ (state (store w') = Rolling /\ 1 <= eval nextRoundCount w').
Proof.
  intros E Hnn. cbv zeta. unfold exec. rewrite (play_not_Finished w E).
  set (v := {| store := started (store w); source := source w |}).
  assert (Hv : nonNegative (troops (store v)))
    by (unfold v; now rewrite started_world_troops).
  destruct (rollDices_nonneg v Hv) as ([Hpa Hpd] & _).
  pose proof (rollDices_checks v) as (H0 & H1 & H2). cbv zeta in H0, H1, H2.
  unfold exec in *. unfold eval. rewrite nextRoundCount_run. cbn [fst].
  unfold MAX_DICE_ROUNDS.
  destruct (decide (defense (troops (store (rollDices v).2)) = 0)) as [Hd|Hd].
  - left. split; [now apply H0 | lia].
  - destruct (Z.le_gt_cases (attack (troops (store (rollDices v).2))) 1)
      as [Ha|Ha].
    + left. split; [now apply H1 | lia].
    + right. destruct (H2 Hd ltac:(lia)) as [Hs _]. split; [|lia].
      rewrite Hs. unfold v. cbn [store]. now apply started_state.
Qed.

(** X9.  After a [play] in an unfinished game with non-negative troops
    the game is finished exactly when the next round count is 0, and
    rolling exactly when at least one more pair can be compared. *)
Theorem X9_finished_iff_no_round_left w :
  state (store w) <> Finished -> nonNegative (troops (store w)) ->
  let w' := exec play w in
  (state (store w') = Finished <-> eval nextRoundCount w' = 0)
  /\ (state (store w') = Rolling <-> 1 <= eval nextRoundCount w').
Proof.
  intros E Hnn. cbv zeta.
  destruct (play_outcome w E Hnn) as [[Hs Hrc]|[Hs Hrc]]; cbv zeta in *;
    rewrite Hs; repeat split; intros; try reflexivity; try discriminate; lia.
Qed.

Lemma X9_finished_iff_no_round_left_witness :
  let w := initialWorld (sourceOf [6; 6; 6]) in
  state (store (exec play w)) = Rolling
  /\ 1 <= eval nextRoundCount (exec play w).
Proof.
  intros w.
  destruct (X9_finished_iff_no_round_left w ltac:(discriminate)
              ltac:(split; simpl; lia)) as (_ & Hroll).
  split; [reflexivity|]. apply Hroll. reflexivity.
Defined.

(** ** Whole games *)

Lemma exec_plays_S n w : exec (plays (S n)) w = exec (plays n) (exec play w).
Proof. unfold plays. cbn [replicate]. apply exec_calls_cons. Qed.

Lemma game_finishes_within (k : nat) : forall w,
  state (store w) <> Finished -> nonNegative (troops (store w)) ->
  attack (troops (store w)) + defense (troops (store w)) <= Z.of_nat k ->
  exists n, (1 <= n <= S k)%nat /\ state (store (exec (plays n) w)) = Finished.
Proof.
  induction k as [|k IH]; intros w E Hnn Hk.
  - exists 1%nat. split; [lia|]. rewrite exec_plays_S.
    destruct (play_outcome w E Hnn) as [[Hs _]|[Hs Hrc]]; [exact Hs|].
    cbv zeta in Hrc.
    destruct (operations_nonneg w Hnn) as (_ & [Hpa Hpd] & _).
    unfold eval in Hrc. rewrite nextRoundCount_run in Hrc. cbn [fst] in Hrc.
    assert (Hle : forall side, sget (troops (store (exec play w))) side
                               <= sget (troops (store w)) side).
    { intros side. unfold exec. rewrite (play_not_Finished w E).
      destruct (rollDices_nonneg
        {| store := started (store w); source := source w |}) as [_ Hle].
      - now rewrite started_world_troops.
      - rewrite <- (started_world_troops w). apply Hle. }
    pose proof (Hle Attack) as HA. pose proof (Hle Defense) as HD.
    destruct Hnn. cbn [sget] in *. lia.
  - destruct (play_outcome w E Hnn) as [[Hs _]|[Hs Hrc]].
    + exists 1%nat. split; [lia|]. now rewrite exec_plays_S.
    + cbv zeta in Hs, Hrc.
      destruct (operations_nonneg w Hnn) as (_ & Hnn' & _).
      destruct (IH (exec play w)) as (n & Hn & Hfin).
      * rewrite Hs. discriminate.
      * exact Hnn'.
      * unfold exec in *. rewrite (play_not_Finished w E) in *.
        set (v := {| store := started (store w); source := source w |}) in *.
        pose proof (rollDices_troops v) as (HA & HD & Hsum).
        cbv zeta in HA, HD, Hsum. unfold exec in HA, HD, Hsum.
        assert (Hv : troops (store v) = troops (store w))
          by apply started_world_troops.
        rewrite Hv in *.
        assert (Hpos : 1 <= eval nextRoundCount v).
        { destruct (decide (eval nextRoundCount v = 0)) as [Hz|Hz].
          - rewrite Hz in *.
            unfold eval in Hrc, Hz. rewrite nextRoundCount_run in Hrc, Hz.
            cbn [fst] in Hrc, Hz. rewrite Hv in Hz.
            destruct Hnn' as [Hpa Hpd]. lia.
          - pose proof (nextRoundCount_bounds v) as [Hb _]. cbv zeta in Hb. lia. }
        lia.
      * exists (S n). split; [lia|]. now rewrite exec_plays_S.
Qed.

(** X10.  Every game ends: from a store that is not finished and holds
    non-negative troops within the safe integers, some number of [play]
    calls, at least one and at most the total of the troops plus one,
    reaches the finished phase, whatever the dice. *)
Theorem X10_game_finishes w :
  state (store w) <> Finished ->
  nonNegative (troops (store w)) ->
  safeTroops (troops (store w)) ->
  exists n,
    (1 <= n)%nat
    /\ Z.of_nat n
       <= attack (troops (store w)) + defense (troops (store w)) + 1
    /\ state (store (exec (plays n) w)) = Finished.
Proof.
  intros E Hnn _.
  destruct (game_finishes_within
    (Z.to_nat (attack (troops (store w)) + defense (troops (store w)))) w E Hnn)
    as (n & Hn & Hfin).
  - destruct Hnn. lia.
  - exists n. destruct Hnn. repeat split; [lia | lia | exact Hfin].
Qed.

Lemma X10_game_finishes_witness :
  exists n, (1 <= n)%nat /\ Z.of_nat n <= 9
    /\ state (store (exec (plays n) (initialWorld (sourceOf [])))) = Finished.
Proof.
  apply (X10_game_finishes (initialWorld (sourceOf []))).
  - discriminate.
  - split; simpl; lia.
  - unfold safeTroops, MAX_SAFE_INTEGER. simpl. lia.
Defined.

(** ** Invariants along any sequence of calls *)

(** An invariant of the data fields that holds in the initial store and
    that every call keeps holds after any sequence of calls. *)
Lemma calls_invariant (P : GameData -> Prop) :
  P initialState ->
  (forall op w, P (store w) -> P (store (exec (call op) w))) ->
  forall ops src, P (store (exec (calls ops) (initialWorld src))).
Proof.
  intros Hinit Hstep ops src.
  assert (H0 : P (store (initialWorld src))) by exact Hinit.
  revert H0. generalize (initialWorld src) as w.
  induction ops as [|op rest IH]; intros w Hw; [exact Hw|].
  rewrite exec_calls_cons. apply IH. now apply Hstep.
Qed.

Lemma call_winner op w :
  (winner (store w) <> None <-> state (store w) = Finished) ->
  (winner (store (exec (call op) w)) <> None
   <-> state (store (exec (call op) w)) = Finished).
Proof.
  intros Hinv. destruct op as [side value| |]; cbn [call].
  - exact Hinv.
  - destruct (decide (state (store w) = Finished)) as [E|E].
    + unfold exec. rewrite (play_Finished w E). cbn. split; [congruence|discriminate].
    + unfold exec. rewrite (play_not_Finished w E).
      set (v := {| store := started (store w); source := source w |}).
      assert (Hv : state (store v) = Rolling /\ winner (store v) = None).
      { unfold v. cbn [store]. split; [now apply started_state|].
        unfold started. destruct (decide _); [reflexivity|].
        destruct (winner (store w)) as [x|] eqn:Hw; [|reflexivity].
        exfalso. apply E, Hinv. discriminate. }
      destruct Hv as [Hvs Hvw].
      pose proof (rollDices_checks v) as (H0 & H1 & H2).
      cbv zeta in H0, H1, H2. unfold exec in *.
      destruct (decide (defense (troops (store (rollDices v).2)) = 0))
        as [Hd|Hd].
      * destruct (H0 Hd) as [-> ->]. split; [reflexivity|discriminate].
      * destruct (Z.le_gt_cases
          (attack (troops (store (rollDices v).2))) 1) as [Ha|Ha].
        -- destruct (H1 Hd Ha) as [-> ->]. split; [reflexivity|discriminate].
        -- destruct (H2 Hd ltac:(lia)) as [-> ->]. rewrite Hvs, Hvw.
           split; [congruence|discriminate].
  - cbn. split; [congruence|discriminate].
Qed.

(** X11.  After any sequence of [setTroops], [play] and [reset] calls on
    the initial store, a winner is recorded exactly when the phase is
    Finished. *)
Theorem X11_winner_iff_finished ops src :
  let g := store (exec (calls ops) (initialWorld src)) in
  winner g <> None <-> state g = Finished.
Proof.
  cbv zeta.
  apply (calls_invariant
           (fun g => winner g <> None <-> state g = Finished)).
  - cbn. split; [congruence|discriminate].
  - apply call_winner.
Qed.

Lemma rollDices_initialTroops w :
  initialTroops (store (exec rollDices w)) = initialTroops (store w).
Proof. now rewrite rollDices_store. Qed.

Lemma play_snapshot w :
  nonNegative (troops (store w))
  /\ (state (store w) <> Waiting ->
      forall side, sget (troops (store w)) side
                   <= sget (initialTroops (store w)) side) ->
  let g := store (exec play w) in
  nonNegative (troops g)
  /\ (state g <> Waiting ->
      forall side, sget (troops g) side <= sget (initialTroops g) side).
Proof.
  intros [Hnn Hle]. cbv zeta.
  destruct (operations_nonneg w Hnn) as (_ & Hplay & _).
  split; [exact Hplay|].
  destruct (decide (state (store w) = Finished)) as [E|E].
  - unfold exec. rewrite (play_Finished w E). cbn. congruence.
  - unfold exec. rewrite (play_not_Finished w E).
    set (v := {| store := started (store w); source := source w |}).
    intros _ side.
    fold (exec rollDices v). rewrite rollDices_initialTroops.
    assert (Hv : nonNegative (troops (store v)))
      by (unfold v; now rewrite started_world_troops).
    destruct (rollDices_nonneg v Hv) as [_ Hdown].
    etransitivity; [apply Hdown|].
    unfold v. cbn [store]. unfold started.
    destruct (decide (state (store w) = Waiting)) as [Ew|Ew]; cbn [troops initialTroops].
    + reflexivity.
    + now apply Hle.
Qed.

(** X12.  When the troops are set before the game and then only [play]
    is called, the troops of a game under way or finished never exceed
    the snapshot [initialTroops] taken at its first exchange, and are
    never negative. *)
Theorem X12_troops_within_snapshot cfg n src :
  let g := store (exec (plays n) (exec (configure cfg) (initialWorld src))) in
  state g <> Waiting ->
  forall side, 0 <= sget (troops g) side <= sget (initialTroops g) side.
Proof.
  cbv zeta.
  destruct (configure_keeps cfg (initialWorld src)) as (Hs & _ & _ & Hn).
  { split; cbn; lia. }
  assert (H0 : nonNegative (troops (store (exec (configure cfg) (initialWorld src))))
    /\ (state (store (exec (configure cfg) (initialWorld src))) <> Waiting ->
        forall side,
          sget (troops (store (exec (configure cfg) (initialWorld src)))) side
          <= sget (initialTroops
                     (store (exec (configure cfg) (initialWorld src)))) side)).
  { split; [exact Hn|]. rewrite Hs. cbn. congruence. }
  revert H0. generalize (exec (configure cfg) (initialWorld src)) as w.
  induction n as [|n IH]; intros w Hw.
  - intros Hst side. destruct Hw as [[Ha Hd] Hle].
    split; [destruct side; assumption | now apply Hle].
  - rewrite exec_plays_S. apply IH. now apply play_snapshot.
Qed.

Lemma X12_troops_within_snapshot_witness :
  let g := store (exec (plays 2)
             (exec (configure [(Attack, Num 6)])
                (initialWorld (sourceOf [6; 6; 6; 1; 1; 1])))) in
  0 <= sget (troops g) Defense <= sget (initialTroops g) Defense.
Proof.
  intros g.
  apply (X12_troops_within_snapshot [(Attack, Num 6)] 2
           (sourceOf [6; 6; 6; 1; 1; 1])).
  discriminate.
Defined.

(** X13.  A [play] in an unfinished game records exactly one roll: in
    phase Waiting the history is cleared first, so that the new roll is
    its only entry; in phase Rolling the earlier rolls are all kept and
    the new one is added at the end.  [getLastRoll] then gives it. *)
Theorem X13_play_records_one_roll w :
  state (store w) <> Finished ->
  exists r,
    eval getLastRoll (exec play w) = Some r
    /\ (state (store w) = Waiting -> rolls (store (exec play w)) = [r])
    /\ (state (store w) = Rolling ->
        rolls (store (exec play w)) = rolls (store w) ++ [r]).
Proof.
  intros E. unfold exec. rewrite (play_not_Finished w E).
  set (v := {| store := started (store w); source := source w |}).
  destruct (getLastRoll_rollDices v) as (r & Hlast & Hrolls).
  exists r. split; [exact Hlast|]. unfold exec in Hrolls. rewrite Hrolls.
  unfold v. cbn [store]. unfold started. split; intros Hs.
  - destruct (decide _); [reflexivity|contradiction].
  - destruct (decide _) as [Ew|_]; [congruence|reflexivity].
Qed.

Lemma X13_play_records_one_roll_witness :
  exists r, eval getLastRoll (exec play (initialWorld (sourceOf []))) = Some r
            /\ rolls (store (exec play (initialWorld (sourceOf [])))) = [r].
Proof.
  destruct (X13_play_records_one_roll (initialWorld (sourceOf [])))
    as (r & Hlast & Hwait & _); [discriminate|].
  exists r. split; [exact Hlast | now apply Hwait].
Defined.

(** X14.  [setTroops] calls for different sides can be made in either
    order, whatever the values, since a function value only sees the
    count of its own side; and a number given to [setTroops] overrides
    whatever an earlier call stored for the same side. *)
Theorem X14_setTroops_compose s1 s2 v1 v2 n w :
  (s1 <> s2 ->
   exec (setTroops s1 v1) (exec (setTroops s2 v2) w)
   = exec (setTroops s2 v2) (exec (setTroops s1 v1) w))
  /\ exec (setTroops s1 (Num n)) (exec (setTroops s1 v1) w)
     = exec (setTroops s1 (Num n)) w.
Proof.
  split.
  - intros Hne. unfold exec, setTroops, set. cbn [snd store source troops
      state initialTroops rolls winner].
    destruct s1, s2; try congruence; reflexivity.
  - unfold exec, setTroops, set. cbn [snd store source troops
      state initialTroops rolls winner].
    destruct s1; reflexivity.
Qed.

Lemma X14_setTroops_compose_witness :
  let w := initialWorld (sourceOf []) in
  exec (setTroops Attack (Fn (fun c => c + 1)))
    (exec (setTroops Defense (Num 2)) w)
  = exec (setTroops Defense (Num 2))
      (exec (setTroops Attack (Fn (fun c => c + 1))) w).
Proof.
  intros w.
  apply (X14_setTroops_compose Attack Defense (Fn (fun c => c + 1)) (Num 2) 0 w).
  discriminate.
Defined.

(** X15.  Two [play] calls on a finished game start a fresh default
    game whatever the troops were: the first resets, the second takes the
    snapshot 4 / 4 and records the only roll of the new history, an
    exchange of three rounds that costs the two sides three troops
    together. *)
Theorem X15_restart_after_finish w :
  state (store w) = Finished ->
  let g := store (exec (plays 2) w) in
  exec (plays 2) w = exec play (initialWorld (source w))
  /\ initialTroops g = {| attack := 4; defense := 4 |}
  /\ attack (troops g) + defense (troops g) = 5
  /\ state g <> Waiting
  /\ exists r, rolls g = [r] /\ length (RollDice.rounds r) = 3%nat.
Proof.
  intros E. cbv zeta.
  assert (Hrun : exec (plays 2) w = exec play (initialWorld (source w))).
  { rewrite !exec_plays_S. unfold exec at 3. rewrite (play_Finished w E).
    reflexivity. }
  rewrite Hrun. split; [reflexivity|].
  set (w0 := initialWorld (source w)).
  assert (E0 : state (store w0) <> Finished) by discriminate.
  unfold exec. rewrite (play_not_Finished w0 E0).
  set (v := {| store := started (store w0); source := source w0 |}).
  fold (exec rollDices v).
  assert (Hrc : eval nextRoundCount v = 3) by reflexivity.
  pose proof (rollDices_troops v) as (_ & _ & Hsum). cbv zeta in Hsum.
  rewrite Hrc in Hsum.
  destruct (rollDices_history v) as [_ Hst].
  split; [now rewrite rollDices_initialTroops|].
  split; [exact Hsum|].
  split; [destruct Hst as [-> | ->]; discriminate|].
  rewrite rollDices_store. cbn [rolls]. eexists. split; [reflexivity|].
  cbn [RollDice.rounds].
  destruct (compareDices_spec (eval nextRoundCount v)
    (eval (rollSides Sides_values (troops (store v)) noDices) v)) as (Hlen & _).
  rewrite Hlen, Hrc. reflexivity.
Qed.

Lemma X15_restart_after_finish_witness :
  let w := exec (calls [SetTroops Attack (Num 2); Play])
             (initialWorld (sourceOf [])) in
  initialTroops (store (exec (plays 2) w)) = {| attack := 4; defense := 4 |}.
Proof.
  intros w. apply (X15_restart_after_finish w). reflexivity.
Defined.

(** X16.  Every die an exchange records is a value the random source
    gave; so with a source of values between 1 and 6 all recorded dice
    lie between 1 and 6. *)
Theorem X16_dice_in_range w :
  (forall k, 1 <= source w k <= 6) ->
  exists r, eval getLastRoll (exec rollDices w) = Some r
    /\ forall side x, x ∈ sget (RollDice.dices r) side -> 1 <= x <= 6.
Proof.
  intros Hsrc. eexists. split; [apply rollDices_recorded|].
  cbn [RollDice.dices].
  destruct (rollSides_run (troops (store w)) w) as [Hd _]. rewrite Hd.
  intros side x Hx.
  assert (Hdrawn : forall from count, x ∈ drawn (source w) from count ->
                     1 <= x <= 6).
  { intros from count Hin. unfold drawn in Hin.
    apply list_elem_of_In, in_map_iff in Hin as (k & <- & _). apply Hsrc. }
  destruct side; cbn [sget attack defense] in Hx;
    rewrite js_sort_perm in Hx; eapply Hdrawn; exact Hx.
Qed.

Lemma X16_dice_in_range_witness :
  exists r, eval getLastRoll
              (exec rollDices (initialWorld (sourceOf [3; 6; 2; 5; 1; 4])))
            = Some r
    /\ forall side x, x ∈ sget (RollDice.dices r) side -> 1 <= x <= 6.
Proof.
  apply (X16_dice_in_range (initialWorld (sourceOf [3; 6; 2; 5; 1; 4]))).
  intros k. cbn [source initialWorld]. unfold sourceOf.
  do 6 (destruct k as [|k]; [simpl; lia|]). simpl. lia.
Defined.
